(** * query.go: construction of minified GraphQL operation text

    A shallow embedding of [query.go] (package graphql) and the properties
    of its two serializers, [writeQuery] and [writeArgumentType], and of the
    assemblers [constructQuery], [constructMutation], [constructSubscription]
    built on them.

    Conventions of the embedding:
    - a [bytes.Buffer] behind an [io.Writer] is a [string]; [io.WriteString]
      appends to it, and every writer function takes the buffer and returns
      the buffer after its writes;
    - a [reflect.Type] is a value of the inductive [type]; an [interface{}]
      argument [v] is represented by [reflect.TypeOf(v)], the only thing the
      code ever asks of it (a nil interface, on which [t.Kind()] panics, has
      no representative);
    - a [map[string]interface{}] is a [gmap string type], each value again
      represented by its reflected type;
    - a Go [(string, error)] result is a pair [string * option error]. *)

From Stdlib Require Import Ascii.
From stdpp Require Import base strings list sorting gmap fin_maps.

Local Open Scope string_scope.

(** ** Buffers *)

Definition Buffer : Type := string.

Definition WriteString (w : Buffer) (s : string) : Buffer := w +:+ s.

(** ** Reflected types *)

(** [reflect.StructField]: the members [writeQuery] reads. [Tag_graphql] is
    the result of [f.Tag.Lookup("graphql")]: [Some value] when the key is
    present ([ok = true]), [None] otherwise. *)
Record StructField (T : Type) : Type := mkStructField {
  Name : string;
  Tag_graphql : option string;
  Anonymous : bool;
  Type_ : T
}.
Arguments mkStructField {T} _ _ _ _.
Arguments Name {T} _.
Arguments Tag_graphql {T} _.
Arguments Anonymous {T} _.
Arguments Type_ {T} _.

(** [reflect.Type], by [Kind()]. [Basic] stands for every kind that neither
    function looks into (Bool, Int, String, Map, Interface, ...); its
    argument is [t.Name()], empty for an unnamed type. The name of a pointer,
    slice or array type is never read. [unmarshaler] records whether
    [reflect.PtrTo(t).Implements(jsonUnmarshaler)]. *)
#[warnings="-register-all"]
Inductive type : Type :=
| Basic (name : string)
| Ptr (elem : type)
| Slice (elem : type)
| Array (len : nat) (elem : type)
| Struct (name : string) (unmarshaler : bool) (fields : list (StructField type)).

Definition type_Name (t : type) : string :=
  match t with
  | Basic name => name
  | Struct name _ _ => name
  | Ptr _ | Slice _ | Array _ _ => ""
  end.

(** Induction over [type] that also reaches the field types of a struct. *)
Section type_induction.
Variable P : type → Prop.
Hypothesis HBasic : ∀ name, P (Basic name).
Hypothesis HPtr : ∀ elem, P elem → P (Ptr elem).
Hypothesis HSlice : ∀ elem, P elem → P (Slice elem).
Hypothesis HArray : ∀ len elem, P elem → P (Array len elem).
Hypothesis HStruct : ∀ name unmarshaler fields,
  Forall (λ f, P (Type_ f)) fields → P (Struct name unmarshaler fields).

Fixpoint type_fields_ind (t : type) : P t :=
  match t with
  | Basic name => HBasic name
  | Ptr elem => HPtr elem (type_fields_ind elem)
  | Slice elem => HSlice elem (type_fields_ind elem)
  | Array len elem => HArray len elem (type_fields_ind elem)
  | Struct name unmarshaler fields =>
      HStruct name unmarshaler fields
        ((fix all (fs : list (StructField type)) :
            Forall (λ f, P (Type_ f)) fs :=
            match fs with
            | [] => Forall_nil_2 _
            | f :: fs' => Forall_cons_2 _ f fs' (type_fields_ind (Type_ f)) (all fs')
            end) fields)
  end.
End type_induction.

(** ** writeQuery and query *)

Fixpoint writeQuery (w : Buffer) (t : type) (inline : bool) {struct t} : Buffer :=
  match t with
  | Ptr elem | Slice elem => writeQuery w elem false
  | Struct _ unmarshaler fields =>
      if unmarshaler then w
      else
        let w := if negb inline then WriteString w "{" else w in
        let w :=
          (fix loop (w : Buffer) (i : nat) (fs : list (StructField type))
               {struct fs} : Buffer :=
             match fs with
             | [] => w
             | f :: fs' =>
                 let w := if negb (Nat.eqb i 0) then WriteString w "," else w in
                 let ok := bool_decide (is_Some (Tag_graphql f)) in
                 let inlineField := Anonymous f && negb ok in
                 let w :=
                   if negb inlineField then
                     match Tag_graphql f with
                     | Some value => WriteString w value
                     | None => WriteString w (Name f)
                     end
                   else w in
                 let w := writeQuery w (Type_ f) inlineField in
                 loop w (S i) fs'
             end) w 0 fields in
        if negb inline then WriteString w "}" else w
  | Basic _ | Array _ _ => w
  end.

Definition query (v : type) : string := writeQuery "" v false.

(** The running example of the documentation: [struct{Name string; Age *int}]. *)
Definition exampleShape : type :=
  Struct "" false
    [ mkStructField "Name" None false (Basic "string");
      mkStructField "Age" None false (Ptr (Basic "int")) ].

(** The field loop of [writeQuery] as a function of its own: the buffer, the
    loop index [i] and the fields [t.Field(i)], [t.Field(i+1)], ... still to
    be written. *)
Definition writeField (w : Buffer) (i : nat) (f : StructField type) : Buffer :=
  let w := if negb (Nat.eqb i 0) then WriteString w "," else w in
  let ok := bool_decide (is_Some (Tag_graphql f)) in
  let inlineField := Anonymous f && negb ok in
  let w :=
    if negb inlineField then
      match Tag_graphql f with
      | Some value => WriteString w value
      | None => WriteString w (Name f)
      end
    else w in
  writeQuery w (Type_ f) inlineField.

Fixpoint writeFields (w : Buffer) (i : nat) (fs : list (StructField type)) : Buffer :=
  match fs with
  | [] => w
  | f :: fs' => writeFields (writeField w i f) (S i) fs'
  end.

(** The separator written before field [i]. *)
Definition separator (w : Buffer) (i : nat) : Buffer :=
  if negb (Nat.eqb i 0) then WriteString w "," else w.

(** A field is inlined when it is embedded and carries no [graphql] tag. *)
Definition inlineField (f : StructField type) : bool :=
  Anonymous f && negb (bool_decide (is_Some (Tag_graphql f))).

(** What is written for a field that is not inlined, before its type. *)
Definition displayName (f : StructField type) : string :=
  match Tag_graphql f with
  | Some value => value
  | None => Name f
  end.

(** ** writeArgumentType and queryArguments *)

Fixpoint writeArgumentType (w : Buffer) (t : type) (value : bool) : Buffer :=
  match t with
  | Ptr elem => writeArgumentType w elem false
  | Slice elem | Array _ elem =>
      let w := WriteString w "[" in
      let w := writeArgumentType w elem true in
      let w := WriteString w "]" in
      if value then WriteString w "!" else w
  | Basic _ | Struct _ _ _ =>
      let name := type_Name t in
      let name := if bool_decide (name = "string") then "ID" else name in
      let w := WriteString w name in
      if value then WriteString w "!" else w
  end.

(** [sort.Strings]: ascending byte-wise order. Any sorting algorithm returns
    the same list (see [sort_Strings_unique]); merge sort stands for Go's. *)
Definition sort_Strings (keys : list string) : list string :=
  merge_sort String.le keys.

(** The body of [queryArguments] once the range loop has collected [keys].
    [variables[k]] is a lookup of a key taken from the map itself. *)
Definition queryArguments_of_keys (keys : list string)
    (variables : gmap string type) : string :=
  let keys := sort_Strings keys in
  fold_left
    (λ (buf : Buffer) (k : string),
       let buf := WriteString buf "$" in
       let buf := WriteString buf k in
       let buf := WriteString buf ":" in
       match variables !! k with
       | Some t => writeArgumentType buf t true
       | None => buf
       end)
    keys "".

(** [for k := range variables] enumerates the keys in an order the language
    leaves unspecified: any permutation of the key set can be what the loop
    collects. *)
Definition rangeOrder (variables : gmap string type) (keys : list string) : Prop :=
  keys ≡ₚ (map_to_list variables).*1.

Definition queryArguments (variables : gmap string type) : string :=
  queryArguments_of_keys (map_to_list variables).*1 variables.

(** ** Options *)

(** Modelled from the spec: the [Option] interface and the constants
    [optionTypeOperationName] and [OptionTypeOperationDirective] are declared
    in another file of the package. An option is "a tagged value with a
    discriminant (operation-name, operation-directive, or unrecognized) and a
    string payload"; an unrecognized discriminant carries the text that [%s]
    prints for it. *)
Inductive OptionType : Type :=
| optionTypeOperationName
| OptionTypeOperationDirective
| optionTypeUnrecognized (text : string).

Record Option : Type := mkOption {
  option_Type : OptionType;
  option_String : string
}.

(** A Go [error] made by [fmt.Errorf]: its message. *)
Inductive error : Type := Errorf (message : string).

Record constructOptionsOutput : Type := mkConstructOptionsOutput {
  operationName : string;
  operationDirectives : list string
}.

(** [strings.Join]. *)
Fixpoint strings_Join (elems : list string) (sep : string) : string :=
  match elems with
  | [] => ""
  | [s] => s
  | s :: rest => s +:+ sep +:+ strings_Join rest sep
  end.

Definition OperationDirectivesString (coo : constructOptionsOutput) : string :=
  let operationDirectivesStr := strings_Join (operationDirectives coo) " " in
  if negb (bool_decide (operationDirectivesStr = "")) then
    " " +:+ operationDirectivesStr +:+ " "
  else "".

(** The loop of [constructOptions], from the output built so far. *)
Fixpoint constructOptions_from (output : constructOptionsOutput)
    (options : list Option) : constructOptionsOutput + error :=
  match options with
  | [] => inl output
  | option :: rest =>
      match option_Type option with
      | optionTypeOperationName =>
          constructOptions_from
            (mkConstructOptionsOutput (option_String option)
               (operationDirectives output)) rest
      | OptionTypeOperationDirective =>
          constructOptions_from
            (mkConstructOptionsOutput (operationName output)
               (operationDirectives output ++ [option_String option])) rest
      | optionTypeUnrecognized text =>
          inr (Errorf ("invalid query option type: " +:+ text))
      end
  end.

Definition constructOptions (options : list Option) : constructOptionsOutput + error :=
  constructOptions_from (mkConstructOptionsOutput "" []) options.

(** ** The three assemblers *)

Definition constructQuery (v : type) (variables : gmap string type)
    (options : list Option) : string * option error :=
  let query := query v in
  match constructOptions options with
  | inr err => ("", Some err)
  | inl optionsOutput =>
      if bool_decide (0 < size variables) then
        ("query " +:+ operationName optionsOutput +:+ "("
           +:+ queryArguments variables +:+ ")"
           +:+ OperationDirectivesString optionsOutput +:+ query, None)
      else if bool_decide (operationName optionsOutput = "")
                && bool_decide (length (operationDirectives optionsOutput) = 0) then
        (query, None)
      else
        ("query " +:+ operationName optionsOutput
           +:+ OperationDirectivesString optionsOutput +:+ query, None)
  end.

Definition constructMutation (v : type) (variables : gmap string type)
    (options : list Option) : string * option error :=
  let query := query v in
  match constructOptions options with
  | inr err => ("", Some err)
  | inl optionsOutput =>
      if bool_decide (0 < size variables) then
        ("mutation " +:+ operationName optionsOutput +:+ "("
           +:+ queryArguments variables +:+ ")"
           +:+ OperationDirectivesString optionsOutput +:+ query, None)
      else if bool_decide (operationName optionsOutput = "")
                && bool_decide (length (operationDirectives optionsOutput) = 0) then
        ("mutation" +:+ query, None)
      else
        ("mutation " +:+ operationName optionsOutput
           +:+ OperationDirectivesString optionsOutput +:+ query, None)
  end.

Definition constructSubscription (v : type) (variables : gmap string type)
    (options : list Option) : string * option error :=
  let query := query v in
  match constructOptions options with
  | inr err => ("", Some err)
  | inl optionsOutput =>
      if bool_decide (0 < size variables) then
        ("subscription " +:+ operationName optionsOutput +:+ "("
           +:+ queryArguments variables +:+ ")"
           +:+ OperationDirectivesString optionsOutput +:+ query, None)
      else if bool_decide (operationName optionsOutput = "")
                && bool_decide (length (operationDirectives optionsOutput) = 0) then
        ("subscription" +:+ query, None)
      else
        ("subscription " +:+ operationName optionsOutput
           +:+ OperationDirectivesString optionsOutput +:+ query, None)
  end.

Definition TInt : type := Basic "Int".
Definition TBoolean : type := Basic "Boolean".
Definition vars_ab : gmap string type := <["a" := TInt]> (<["b" := Ptr TBoolean]> ∅).
Definition vars_ba : gmap string type := <["b" := Ptr TBoolean]> (<["a" := TInt]> ∅).
Definition vars_id : gmap string type := {["id" := Basic "string"]}.


(** ** Shapes used in the statements *)

(** An embedded (anonymous) field without a tag: Go names it after its type. *)
Definition embedded (name : string) (t : type) : StructField type :=
  mkStructField name None true t.

(** A plain named field without a tag. *)
Definition field (name : string) (t : type) : StructField type :=
  mkStructField name None false t.

(** The same field with another type. *)
Definition retype (f : StructField type) (t : type) : StructField type :=
  mkStructField (Name f) (Tag_graphql f) (Anonymous f) t.


(** [struct{ A string; E; B string }] for an embedded struct type [E]. *)
Definition parentOf (E : type) : type :=
  Struct "P" false [ field "A" (Basic "string"); embedded "E" E;
                     field "B" (Basic "string") ].

Definition emptyStruct : type := Struct "E" false [].

Definition pairStruct : type :=
  Struct "E" false [ field "X" (Basic "int"); field "Y" (Basic "int") ].

(** A struct with two fields whose pointer type implements
    [json.Unmarshaler]. *)
Definition scalarStruct : type :=
  Struct "E" true [ field "X" (Basic "int"); field "Y" (Basic "int") ].

(** ** Variable declarations, as text *)

(** One declaration of the variable block: [$name:Type]. *)
Definition declaration (entry : string * type) : string :=
  "$" +:+ entry.1 +:+ ":" +:+ writeArgumentType "" entry.2 true.

(** Texts put one after the other, with nothing in between. *)
Definition concat_strings (parts : list string) : string :=
  foldr String.append "" parts.

(** Entries compared by variable name. *)
Definition entry_le (a b : string * type) : Prop := String.le a.1 b.1.

(** ** Text and type predicates used in the statements *)

(** The last byte of a text, if it has one. *)
Fixpoint lastByte (s : string) : option ascii :=
  match s with
  | EmptyString => None
  | String c EmptyString => Some c
  | String _ rest => lastByte rest
  end.

(** Bytes of a Go identifier: ASCII letters, digits and the underscore, and
    the bytes of the UTF-8 encoding of a letter or digit outside ASCII. *)
Definition isIdentifierByte (c : ascii) : bool :=
  let n := nat_of_ascii c in
  (Nat.leb 48 n && Nat.leb n 57) || (Nat.leb 65 n && Nat.leb n 90)
  || (Nat.leb 97 n && Nat.leb n 122) || Nat.eqb n 95 || Nat.leb 128 n.

Fixpoint isIdentifier (s : string) : bool :=
  match s with
  | EmptyString => true
  | String c rest => isIdentifierByte c && isIdentifier rest
  end.

(** The names [t.Name()] can return anywhere in [t] are identifiers, or
    empty for an unnamed type. *)
Fixpoint type_names_ok (t : type) : bool :=
  match t with
  | Basic name => isIdentifier name
  | Ptr elem | Slice elem | Array _ elem => type_names_ok elem
  | Struct name _ fields =>
      isIdentifier name && forallb (λ f, type_names_ok (Type_ f)) fields
  end.

Definition isPtr (t : type) : bool :=
  match t with
  | Ptr _ => true
  | _ => false
  end.

(** The type with [string] as the name of its innermost element type
    replaced by [ID]; list and pointer structure is kept. *)
Fixpoint renameString (t : type) : type :=
  match t with
  | Basic name => Basic (if bool_decide (name = "string") then "ID" else name)
  | Ptr elem => Ptr (renameString elem)
  | Slice elem => Slice (renameString elem)
  | Array len elem => Array len (renameString elem)
  | Struct name unmarshaler fields =>
      Struct (if bool_decide (name = "string") then "ID" else name)
        unmarshaler fields
  end.

(** The type [writeQuery] ends up at from a root: pointers and slices
    removed. *)
Fixpoint unwrap (t : type) : type :=
  match t with
  | Ptr elem | Slice elem => unwrap elem
  | _ => t
  end.

Definition isRecord (t : type) : bool :=
  match t with
  | Struct _ _ _ => true
  | _ => false
  end.

(** An option that [constructOptions] does not know. *)
Definition unrecognized (option : Option) : Prop :=
  option_Type option ≠ optionTypeOperationName ∧
  option_Type option ≠ OptionTypeOperationDirective.

(** The error [constructOptions] makes for a discriminant printed as [text]. *)
Definition invalidOption (text : string) : error :=
  Errorf ("invalid query option type: " +:+ text).

Definition entries_ab : list (string * type) := [("a", TInt); ("b", Ptr TBoolean)].
Definition entries_ba : list (string * type) := [("b", Ptr TBoolean); ("a", TInt)].

(** ** Further notions used in the statements *)

(** What a field adds after its separator: its display name unless it is
    inlined, then what its type writes. *)
Definition fieldText (f : StructField type) : string :=
  (if inlineField f then "" else displayName f)
  +:+ writeQuery "" (Type_ f) (inlineField f).

(** The discriminant is one of the two that [constructOptions] handles. *)
Definition recognized (option : Option) : bool :=
  match option_Type option with
  | optionTypeUnrecognized _ => false
  | _ => true
  end.

(** The payload of the last operation-name option, [init] if there is none. *)
Fixpoint lastOperationName (init : string) (options : list Option) : string :=
  match options with
  | [] => init
  | option :: rest =>
      match option_Type option with
      | optionTypeOperationName => lastOperationName (option_String option) rest
      | _ => lastOperationName init rest
      end
  end.

(** The payloads of the operation-directive options, in the order given. *)
Definition directivesOf (options : list Option) : list string :=
  omap (λ option,
          match option_Type option with
          | OptionTypeOperationDirective => Some (option_String option)
          | _ => None
          end) options.

(** The number of occurrences of a byte in a text. *)
Fixpoint countByte (c : ascii) (s : string) : nat :=
  match s with
  | EmptyString => 0
  | String d rest => (if Ascii.eqb c d then 1 else 0) + countByte c rest
  end.

Definition noBraces (s : string) : bool :=
  Nat.eqb (countByte "{" s) 0 && Nat.eqb (countByte "}" s) 0.

(** Every name or tag that [writeQuery] would write for [t] is free of
    braces. Scalar structs and inlined fields write no name. *)
Fixpoint displayNames_ok (t : type) : bool :=
  match t with
  | Ptr elem | Slice elem => displayNames_ok elem
  | Struct _ unmarshaler fields =>
      unmarshaler
      || forallb (λ f, (inlineField f || noBraces (displayName f))
                       && displayNames_ok (Type_ f)) fields
  | Basic _ | Array _ _ => true
  end.

(** The number of slice and array layers of a type, through pointers. *)
Fixpoint listDepth (t : type) : nat :=
  match t with
  | Ptr elem => listDepth elem
  | Slice elem | Array _ elem => S (listDepth elem)
  | Basic _ | Struct _ _ _ => 0
  end.

(** The type under all the pointers around it. *)
Fixpoint underlying (t : type) : type :=
  match t with
  | Ptr elem => underlying elem
  | _ => t
  end.

(** The variables [a], a Go [int], and [b], a pointer to a Go [bool]. *)
Definition vars_int_bool : gmap string type :=
  <["a" := Basic "int"]> (<["b" := Ptr (Basic "bool")]> ∅).

#[local] Instance entry_le_dec : RelDecision entry_le.
Proof. intros a b. unfold entry_le. apply _. Defined.

#[local] Instance entry_le_total : Total entry_le.
Proof. intros a b. unfold entry_le. apply (total String.le). Qed.

(** * Properties *)

(** ** Strings and buffers *)

Lemma append_empty_l (a : string) : "" +:+ a = a.
Proof. reflexivity. Qed.

Lemma append_cons (x : ascii) (a b : string) :
  String x a +:+ b = String x (a +:+ b).
Proof. reflexivity. Qed.

Lemma append_assoc (a b c : string) : (a +:+ b) +:+ c = a +:+ (b +:+ c).
Proof.
  induction a as [|x a IH]; [done |].
  by rewrite !append_cons, IH.
Qed.

Lemma append_empty_r (a : string) : a +:+ "" = a.
Proof.
  induction a as [|x a IH]; [done |].
  by rewrite append_cons, IH.
Qed.

Create Rewrite HintDb buffers.
#[export] Hint Rewrite append_assoc append_empty_r append_empty_l append_cons : buffers.

(** Normal form of a buffer expression: appends nested to the right. *)
Ltac buffers := unfold WriteString; autorewrite with buffers; try done.

(** ** writeQuery: the field loop and buffer framing *)

Lemma writeQuery_Struct (w : Buffer) name unmarshaler fields inline :
  writeQuery w (Struct name unmarshaler fields) inline =
    if unmarshaler then w
    else
      let w := if negb inline then WriteString w "{" else w in
      let w := writeFields w 0 fields in
      if negb inline then WriteString w "}" else w.
Proof.
  simpl. destruct unmarshaler; [done |]. cbv zeta.
  match goal with
  | |- context [?loop _ 0 fields] =>
      assert (Hloop : ∀ fs w0 i, loop w0 i fs = writeFields w0 i fs)
  end.
  { induction fs as [|f fs IH]; intros w0 i; [done |].
    simpl. by rewrite IH. }
  by rewrite Hloop.
Qed.

(** The text a call writes does not depend on what the buffer already holds. *)
Lemma writeQuery_frame (t : type) :
  ∀ (w : Buffer) inline, writeQuery w t inline = w +:+ writeQuery "" t inline.
Proof.
  induction t as [name|elem IH|elem IH|len elem IH|name unm fields IH]
    using type_fields_ind; intros w inline.
  - simpl. by buffers.
  - simpl. apply IH.
  - simpl. apply IH.
  - simpl. by buffers.
  - rewrite !writeQuery_Struct. destruct unm; [by buffers |].
    cbv zeta.
    assert (Hfs : ∀ w i, writeFields w i fields = w +:+ writeFields "" i fields).
    { clear w inline. induction IH as [|f fs Hf _ IHfs]; intros w i.
      - simpl. by buffers.
      - simpl. rewrite IHfs, (IHfs (writeField "" i f)), <- append_assoc.
        f_equal. unfold writeField. cbv zeta.
        rewrite Hf, (Hf (if negb _ then _ else _)).
        destruct (negb (Nat.eqb i 0)), (negb (Anonymous f && _)), (Tag_graphql f);
          by buffers. }
    destruct inline; simpl negb; cbv iota.
    + apply Hfs.
    + rewrite Hfs, (Hfs (WriteString _ _)). by buffers.
Qed.

Lemma writeField_frame (w : Buffer) (i : nat) (f : StructField type) :
  writeField w i f = w +:+ writeField "" i f.
Proof.
  unfold writeField. cbv zeta.
  rewrite writeQuery_frame, (writeQuery_frame _ (if negb _ then _ else _)).
  destruct (negb (Nat.eqb i 0)), (negb (Anonymous f && _)), (Tag_graphql f);
    by buffers.
Qed.

Lemma writeFields_frame (fs : list (StructField type)) :
  ∀ (w : Buffer) (i : nat), writeFields w i fs = w +:+ writeFields "" i fs.
Proof.
  induction fs as [|f fs IH]; intros w i; simpl; [by buffers |].
  rewrite IH, (IH (writeField "" i f)), (writeField_frame w). by buffers.
Qed.


(** The loop index is only ever compared with 0. *)
Lemma writeField_index_S (w : Buffer) (i j : nat) (f : StructField type) :
  writeField w (S i) f = writeField w (S j) f.
Proof. reflexivity. Qed.

Lemma writeFields_index_S (fs : list (StructField type)) :
  ∀ (w : Buffer) (i j : nat), writeFields w (S i) fs = writeFields w (S j) fs.
Proof.
  induction fs as [|f fs IH]; intros w i j; simpl; [done |].
  rewrite (writeField_index_S w i j). apply IH.
Qed.

Lemma writeField_unfold (w : Buffer) (i : nat) (f : StructField type) :
  writeField w i f =
    writeQuery
      (if inlineField f then separator w i
       else WriteString (separator w i) (displayName f))
      (Type_ f) (inlineField f).
Proof.
  unfold writeField, inlineField, separator, displayName. cbv zeta.
  by destruct (Anonymous f && _), (Tag_graphql f).
Qed.


Lemma writeFields_after_separator (w : Buffer) (i : nat)
    (efs : list (StructField type)) :
  efs ≠ [] → writeFields (separator w i) 0 efs = writeFields w i efs.
Proof.
  destruct efs as [|f efs]; [done |]. intros _. simpl.
  assert (Hf : writeField (separator w i) 0 f = writeField w i f).
  { by rewrite !writeField_unfold. }
  rewrite Hf. destruct i as [|i]; [done |]. apply writeFields_index_S.
Qed.


(** ** The anonymous query form *)

(** C1, as amended: with an empty (or nil) variable map and no options,
    [constructQuery] returns the selection set of the shape by itself, the
    shorthand form without the keyword [query], and no error. *)
Theorem constructQuery_anonymous (v : type) :
  constructQuery v ∅ [] = (query v, None).
Proof. reflexivity. Qed.

(** C1, as stated, fails on the two-field example shape: the result is not
    the keyword, a space and the selection set. *)
Lemma constructQuery_anonymous_has_no_keyword :
  constructQuery exampleShape ∅ [] ≠ ("query " +:+ query exampleShape, None).
Proof. vm_compute. discriminate. Qed.

(** ** Field names *)

(** C2: on [struct{Name string; Age *int}] the selection set carries the
    field names exactly as declared, [{Name,Age}]; the first letter is not
    lowercased, so the text is not [{name,age}]. *)
Theorem query_exampleShape_keeps_case :
  query exampleShape = "{Name,Age}" ∧ query exampleShape ≠ "{name,age}".
Proof. split; [reflexivity | vm_compute; discriminate]. Qed.

(** ** Embedding *)



(** The texts behind the two ways C3 fails as stated. *)
Example embedding_texts :
  query (parentOf emptyStruct) = "{A,,B}" ∧
  query (parentOf scalarStruct) = "{A,,B}" ∧
  query (Struct "P" false
           [ field "A" (Basic "string"); field "B" (Basic "string") ]) = "{A,B}".
Proof. repeat split; reflexivity. Qed.


(** ** Pointer, slice and array wrappers *)






Example wrapper_texts :
  query (Array 2 exampleShape) = "" ∧
  query (Struct "P" false [ embedded "E" (Ptr pairStruct) ]) = "{{X,Y}}" ∧
  query (Struct "P" false [ embedded "E" pairStruct ]) = "{X,Y}".
Proof. repeat split; reflexivity. Qed.

(** ** Scalar structs *)

(** C5: a struct whose pointer type implements [json.Unmarshaler] writes
    nothing, whatever its fields and on either inline flag, also behind
    pointers and slices; a field of such a type adds to the buffer its
    separator and, unless it is inlined, its display name, and nothing else. *)
Theorem scalar_struct_is_not_expanded (name : string)
    (fields : list (StructField type)) :
  (∀ w inline, writeQuery w (Struct name true fields) inline = w) ∧
  (∀ w inline fields',
     writeQuery w (Struct name true fields) inline =
     writeQuery w (Struct name true fields') inline) ∧
  (∀ w inline,
     writeQuery w (Ptr (Struct name true fields)) inline = w ∧
     writeQuery w (Slice (Struct name true fields)) inline = w) ∧
  (∀ w i (f : StructField type),
     writeField w i (retype f (Struct name true fields)) =
       separator w i +:+ (if inlineField f then "" else displayName f)).
Proof.
  repeat split; try reflexivity.
  intros w i f. rewrite writeField_unfold.
  change (inlineField (retype f _)) with (inlineField f).
  change (displayName (retype f _)) with (displayName f).
  destruct (inlineField f); simpl; by buffers.
Qed.

Example scalar_struct_field :
  query (Struct "P" false [ field "A" (Basic "string");
                            field "When" scalarStruct ]) = "{A,When}".
Proof. reflexivity. Qed.

(** ** writeArgumentType: buffer framing *)

Lemma writeArgumentType_frame (t : type) :
  ∀ (w : Buffer) value,
    writeArgumentType w t value = w +:+ writeArgumentType "" t value.
Proof.
  induction t as [name|elem IH|elem IH|len elem IH|name unm fields _]
    using type_fields_ind; intros w value; simpl.
  - destruct value; by buffers.
  - apply IH.
  - rewrite IH, (IH (WriteString _ _)). destruct value; by buffers.
  - rewrite IH, (IH (WriteString _ _)). destruct value; by buffers.
  - destruct value; by buffers.
Qed.

(** ** queryArguments: order of the declarations *)

Lemma sort_Strings_unique (keys sorted : list string) :
  Sorted String.le sorted → sorted ≡ₚ keys → sort_Strings keys = sorted.
Proof.
  intros Hs Hp. apply (Sorted_unique String.le).
  - apply (Sorted_merge_sort String.le).
  - done.
  - unfold sort_Strings. by rewrite merge_sort_Permutation.
Qed.

Lemma sort_Strings_Permutation (keys1 keys2 : list string) :
  keys1 ≡ₚ keys2 → sort_Strings keys1 = sort_Strings keys2.
Proof.
  intros Hp. symmetry. apply sort_Strings_unique.
  - apply (Sorted_merge_sort String.le).
  - unfold sort_Strings. by rewrite merge_sort_Permutation.
Qed.

Lemma fold_declarations (variables : gmap string type)
    (es : list (string * type)) :
  (∀ k t, (k, t) ∈ es → variables !! k = Some t) →
  ∀ buf : Buffer,
    fold_left
      (λ (buf : Buffer) (k : string),
         let buf := WriteString buf "$" in
         let buf := WriteString buf k in
         let buf := WriteString buf ":" in
         match variables !! k with
         | Some t => writeArgumentType buf t true
         | None => buf
         end)
      es.*1 buf
    = buf +:+ concat_strings (declaration <$> es).
Proof.
  induction es as [|[k t] es IH]; intros Hin buf; simpl.
  - by buffers.
  - rewrite IH by (intros; apply Hin; by right).
    rewrite (Hin k t) by left.
    rewrite writeArgumentType_frame. unfold declaration. simpl.
    by buffers.
Qed.

Lemma queryArguments_of_keys_sorted (l : list (string * type))
    (keys : list string) :
  NoDup l.*1 →
  rangeOrder (list_to_map l) keys →
  ∃ es : list (string * type),
    es ≡ₚ l ∧ Sorted String.le es.*1 ∧
    queryArguments_of_keys keys (list_to_map l) =
      concat_strings (declaration <$> es).
Proof.
  intros Hnd Hkeys. exists (merge_sort entry_le l).
  assert (Hperm : merge_sort entry_le l ≡ₚ l) by apply merge_sort_Permutation.
  assert (Hsorted : Sorted String.le (merge_sort entry_le l).*1).
  { apply (Sorted_fmap _ entry_le); [done |]. apply (Sorted_merge_sort entry_le). }
  split_and!; [done | done |].
  unfold queryArguments_of_keys. cbv zeta.
  rewrite (sort_Strings_unique keys (merge_sort entry_le l).*1).
  - rewrite fold_declarations; [by buffers |].
    intros k t Hin. apply elem_of_list_to_map; [done |]. by rewrite <- Hperm.
  - done.
  - unfold rangeOrder in Hkeys. rewrite Hkeys, Hperm.
    by rewrite map_to_list_to_map.
Qed.

(** C6: two variable maps with the same entries under unique names, built by
    inserting the entries in either order and enumerated by the range loop
    in any order, give the same text; the text is the declarations
    [$name:Type] of the entries in ascending order of their names, one after
    the other with nothing in between. *)
Theorem queryArguments_deterministic (l1 l2 : list (string * type))
    (keys1 keys2 : list string) :
  NoDup l1.*1 →
  l1 ≡ₚ l2 →
  rangeOrder (list_to_map l1) keys1 →
  rangeOrder (list_to_map l2) keys2 →
  queryArguments_of_keys keys1 (list_to_map l1) =
    queryArguments_of_keys keys2 (list_to_map l2) ∧
  queryArguments_of_keys keys1 (list_to_map l1) =
    queryArguments (list_to_map l1) ∧
  ∃ es : list (string * type),
    es ≡ₚ l1 ∧ Sorted String.le es.*1 ∧
    queryArguments_of_keys keys1 (list_to_map l1) =
      concat_strings (declaration <$> es).
Proof.
  intros Hnd Hperm Hk1 Hk2.
  assert (Hmap : (list_to_map l1 : gmap string type) = list_to_map l2)
    by by apply list_to_map_proper.
  rewrite <- Hmap in *. unfold queryArguments, rangeOrder in *.
  split_and!.
  - unfold queryArguments_of_keys.
    by rewrite (sort_Strings_Permutation keys1 keys2) by by rewrite Hk1, Hk2.
  - unfold queryArguments_of_keys.
    by rewrite (sort_Strings_Permutation keys1 _ Hk1).
  - by apply queryArguments_of_keys_sorted.
Qed.

Lemma queryArguments_deterministic_witness :
  queryArguments_of_keys ["a"; "b"] (list_to_map entries_ab) =
    queryArguments_of_keys ["b"; "a"] (list_to_map entries_ba).
Proof.
  refine (proj1 (queryArguments_deterministic entries_ab entries_ba
                   ["a"; "b"] ["b"; "a"] _ _ _ _)).
  - apply (bool_decide_unpack _). vm_compute. exact I.
  - apply perm_swap.
  - unfold rangeOrder.
    replace (map_to_list (list_to_map entries_ab : gmap string type)).*1
      with ["a"; "b"] by (vm_compute; reflexivity).
    reflexivity.
  - unfold rangeOrder.
    replace (map_to_list (list_to_map entries_ba : gmap string type)).*1
      with ["a"; "b"] by (vm_compute; reflexivity).
    apply perm_swap.
Defined.

Example queryArguments_texts :
  queryArguments vars_ab = "$a:Int!$b:Boolean" ∧
  queryArguments vars_ba = "$a:Int!$b:Boolean" ∧
  vars_ab = vars_ba.
Proof.
  split_and!; [by vm_compute | by vm_compute |].
  unfold vars_ab, vars_ba. by apply insert_insert_ne.
Qed.

(** ** The required marker *)

Lemma lastByte_app (a b : string) :
  lastByte (a +:+ b) = match b with
                       | EmptyString => lastByte a
                       | String _ _ => lastByte b
                       end.
Proof.
  induction a as [|x a IH].
  - by destruct b.
  - rewrite append_cons. destruct b as [|y b].
    + by rewrite append_empty_r.
    + change (lastByte (String x (a +:+ String y b)))
        with (match a +:+ String y b with
              | EmptyString => Some x
              | String _ _ => lastByte (a +:+ String y b)
              end).
      rewrite IH. by destruct a.
Qed.

Lemma isIdentifier_lastByte (name : string) :
  isIdentifier name = true → lastByte name ≠ Some "!"%char.
Proof.
  induction name as [|c name IH]; [done |].
  simpl isIdentifier. intros [Hc Hname]%andb_prop.
  destruct name as [|d name].
  - simpl. intros [= ->]. by vm_compute in Hc.
  - apply (IH Hname).
Qed.

Lemma writeArgumentType_Ptr (w : Buffer) (T : type) (value : bool) :
  writeArgumentType w (Ptr T) value = writeArgumentType w T false.
Proof. reflexivity. Qed.

Lemma optional_has_no_marker (t : type) :
  lastByte (type_Name (underlying t)) ≠ Some "!"%char →
  lastByte (writeArgumentType "" t false) ≠ Some "!"%char.
Proof.
  induction t as [name|elem IH|elem IH|len elem IH|name unm fields _]
    using type_fields_ind; simpl; intros Hname.
  - by case_bool_decide.
  - by apply IH.
  - rewrite writeArgumentType_frame. unfold WriteString.
    by rewrite lastByte_app.
  - rewrite writeArgumentType_frame. unfold WriteString.
    by rewrite lastByte_app.
  - by case_bool_decide.
Qed.

(** A type whose names are identifiers has no name that ends with [!]. *)
Lemma type_names_ok_underlying (t : type) :
  type_names_ok t = true →
  lastByte (type_Name (underlying t)) ≠ Some "!"%char.
Proof.
  induction t as [name|elem IH|elem IH|len elem IH|name unm fields _]
    using type_fields_ind; simpl; intros Hok; try done.
  - by apply isIdentifier_lastByte.
  - by apply IH.
  - apply andb_prop in Hok as [Hname _]. by apply isIdentifier_lastByte.
Qed.

Lemma required_has_marker (t : type) :
  isPtr t = false → lastByte (writeArgumentType "" t true) = Some "!"%char.
Proof.
  destruct t; simpl; try done; intros _; unfold WriteString;
    by rewrite lastByte_app.
Qed.

(** C7, as amended: the signature of pointer-to-[T] never ends with [!],
    whatever the required flag, for every [T] whose name under its pointers
    does not end with [!] (no name of a Go type does); the signature of a
    type that is not a pointer, asked as required, ends with [!]. The map of
    [a], a value of a type named [Int], and [b], a pointer to a type named
    [Boolean], gives the text [$a:Int!$b:Boolean], and the map of [a], a Go
    [int], and [b], a pointer to a Go [bool], gives [$a:int!$b:bool]; the
    text has no parentheses of its own. *)
Theorem required_marker (T : type) (value : bool) :
  (lastByte (type_Name (underlying T)) ≠ Some "!"%char →
   lastByte (writeArgumentType "" (Ptr T) value) ≠ Some "!"%char) ∧
  (isPtr T = false →
   lastByte (writeArgumentType "" T true) = Some "!"%char) ∧
  queryArguments vars_ab = "$a:Int!$b:Boolean" ∧
  queryArguments vars_int_bool = "$a:int!$b:bool".
Proof.
  split_and!.
  - intros Hname. rewrite writeArgumentType_Ptr.
    by apply optional_has_no_marker.
  - apply required_has_marker.
  - by vm_compute.
  - by vm_compute.
Qed.

Lemma required_marker_witness :
  lastByte (writeArgumentType "" (Ptr (Basic "Box[int]")) true) ≠ Some "!"%char ∧
  lastByte (writeArgumentType "" TBoolean true) = Some "!"%char.
Proof.
  split.
  - apply (proj1 (required_marker (Basic "Box[int]") true)).
    vm_compute. discriminate.
  - apply (proj1 (proj2 (required_marker TBoolean true))). reflexivity.
Defined.

(** C7, as stated, fails on its own example: for [a], a Go [int], and [b],
    a pointer to a Go [bool], the text of [queryArguments] is
    [$a:int!$b:bool], with the names of the Go types and without
    parentheses, and so is not [($a:Int!$b:Boolean)]. *)
Lemma int_and_bool_keep_their_names :
  queryArguments vars_int_bool = "$a:int!$b:bool" ∧
  queryArguments vars_int_bool ≠ "($a:Int!$b:Boolean)".
Proof. split; vm_compute; [reflexivity | discriminate]. Qed.

Example signatures :
  writeArgumentType "" TInt true = "Int!" ∧
  writeArgumentType "" (Ptr TBoolean) true = "Boolean" ∧
  writeArgumentType "" (Slice (Ptr TInt)) true = "[Int]!" ∧
  writeArgumentType "" (Ptr (Array 3 TInt)) true = "[Int!]".
Proof. repeat split; reflexivity. Qed.

(** ** The name of the string type *)

(** C8: at the type named [string] the signature carries [ID] in place of
    the name, with the required marker as for any other type; every other
    name is written as it is; and wherever [string] is reached inside
    pointers, slices and arrays, the signature is the one of the same type
    with [ID] as the name there, so that nothing but the name changes. A
    [string] variable [id] is declared as [$id:ID!]. *)
Theorem string_is_declared_as_ID :
  writeArgumentType "" (Basic "string") true = "ID!" ∧
  (∀ w value,
     writeArgumentType w (Basic "string") value =
       w +:+ "ID" +:+ (if value then "!" else "")) ∧
  (∀ w name value,
     writeArgumentType w (Basic name) value =
       w +:+ (if bool_decide (name = "string") then "ID" else name)
         +:+ (if value then "!" else "")) ∧
  (∀ w t value,
     writeArgumentType w t value = writeArgumentType w (renameString t) value) ∧
  queryArguments vars_id = "$id:ID!".
Proof.
  split_and!.
  - reflexivity.
  - intros w value. simpl. destruct value; by buffers.
  - intros w name value. simpl. destruct value; by buffers.
  - intros w t. revert w.
    induction t as [name|elem IH|elem IH|len elem IH|name unm fields _]
      using type_fields_ind; intros w value; simpl.
    + by repeat case_bool_decide.
    + apply IH.
    + by rewrite IH.
    + by rewrite IH.
    + by repeat case_bool_decide.
  - by vm_compute.
Qed.

Example constructQuery_named :
  constructQuery exampleShape vars_id [ mkOption optionTypeOperationName "GetThing" ]
    = ("query GetThing($id:ID!){Name,Age}", None).
Proof. by vm_compute. Qed.

(** ** Roots that are not structs *)

Lemma writeQuery_not_record (t : type) :
  isRecord (unwrap t) = false → ∀ w inline, writeQuery w t inline = w.
Proof.
  induction t as [name|elem IH|elem IH|len elem IH|name unm fields _]
    using type_fields_ind; simpl; intros Hrec w inline; try done.
  - by apply IH.
  - by apply IH.
Qed.

(** The error of an assembler is the error of [constructOptions], whatever
    the shape and the variables. *)
Lemma construct_error (v : type) (variables : gmap string type)
    (options : list Option) :
  let err := match constructOptions options with
             | inr e => Some e
             | inl _ => None
             end in
  (constructQuery v variables options).2 = err ∧
  (constructMutation v variables options).2 = err ∧
  (constructSubscription v variables options).2 = err.
Proof.
  unfold constructQuery, constructMutation, constructSubscription. cbv zeta.
  destruct (constructOptions options) as [out|e]; [| done].
  by destruct (bool_decide (0 < size variables)),
       (bool_decide (operationName out = "")
        && bool_decide (length (operationDirectives out) = 0)).
Qed.

(** C9, as amended: for a root that, once pointers and slices are removed,
    is not a struct, the selection text is empty and no error comes of it:
    without variables and options the three assemblers return the empty
    text, [mutation] and [subscription], each without error, and with any
    variables and any options that [constructOptions] accepts they return
    no error either. *)
Theorem non_record_root_is_not_rejected (v : type) :
  isRecord (unwrap v) = false →
  query v = "" ∧
  constructQuery v ∅ [] = ("", None) ∧
  constructMutation v ∅ [] = ("mutation", None) ∧
  constructSubscription v ∅ [] = ("subscription", None) ∧
  (∀ variables options output,
     constructOptions options = inl output →
     (constructQuery v variables options).2 = None ∧
     (constructMutation v variables options).2 = None ∧
     (constructSubscription v variables options).2 = None).
Proof.
  intros Hrec.
  assert (Hq : query v = "") by (unfold query; by apply writeQuery_not_record).
  split_and!; try done.
  - change (constructQuery v ∅ []) with (query v, @None error). by rewrite Hq.
  - change (constructMutation v ∅ []) with ("mutation" +:+ query v, @None error).
    by rewrite Hq.
  - change (constructSubscription v ∅ [])
      with ("subscription" +:+ query v, @None error).
    by rewrite Hq.
  - intros variables options output Hopt.
    pose proof (construct_error v variables options) as Herr.
    cbv zeta in Herr. by rewrite Hopt in Herr.
Qed.

Lemma non_record_root_is_not_rejected_witness :
  isRecord (unwrap (Ptr (Basic "int"))) = false ∧
  constructQuery (Ptr (Basic "int")) ∅ [] = ("", None).
Proof.
  split; [reflexivity |].
  apply (proj1 (proj2 (non_record_root_is_not_rejected (Ptr (Basic "int")) eq_refl))).
Defined.

(** C9, as stated, fails on the root [int]: no assembler returns an error,
    and [constructQuery] returns the empty text. *)
Lemma scalar_root_returns_no_error :
  isRecord (unwrap (Basic "int")) = false ∧
  constructQuery (Basic "int") ∅ [] = ("", None) ∧
  constructMutation (Basic "int") ∅ [] = ("mutation", None) ∧
  constructSubscription (Basic "int") ∅ [] = ("subscription", None).
Proof. repeat split; reflexivity. Qed.

(** ** Options that are not recognized *)

Lemma constructOptions_from_unrecognized (options : list Option) :
  Exists unrecognized options →
  ∀ output, ∃ text option,
    option ∈ options ∧
    option_Type option = optionTypeUnrecognized text ∧
    constructOptions_from output options = inr (invalidOption text).
Proof.
  induction options as [|o options IH]; intros Hex output.
  - by apply Exists_nil in Hex.
  - simpl. destruct (option_Type o) as [| |text] eqn:Ho.
    + apply Exists_cons in Hex as [[Hn _]|Hex]; [done |].
      destruct (IH Hex (mkConstructOptionsOutput (option_String o)
                          (operationDirectives output)))
        as (text & o' & Hin & Hty & Hres).
      exists text, o'. split_and!; [by right | done | done].
    + apply Exists_cons in Hex as [[_ Hd]|Hex]; [done |].
      destruct (IH Hex (mkConstructOptionsOutput (operationName output)
                          (operationDirectives output ++ [option_String o])))
        as (text & o' & Hin & Hty & Hres).
      exists text, o'. split_and!; [by right | done | done].
    + exists text, o. split_and!; [by left | done | done].
Qed.

(** C10: when some option of the list has a discriminant that is neither
    operation-name nor operation-directive, each of the three assemblers
    returns the empty text together with the invalid-option error, which
    names the discriminant of such an option of the list, for every shape
    and every variable map. *)
Theorem unrecognized_option_aborts (v : type) (variables : gmap string type)
    (options : list Option) :
  Exists unrecognized options →
  ∃ text option,
    option ∈ options ∧
    option_Type option = optionTypeUnrecognized text ∧
    constructQuery v variables options = ("", Some (invalidOption text)) ∧
    constructMutation v variables options = ("", Some (invalidOption text)) ∧
    constructSubscription v variables options = ("", Some (invalidOption text)).
Proof.
  intros Hex.
  destruct (constructOptions_from_unrecognized options Hex
              (mkConstructOptionsOutput "" []))
    as (text & o & Hin & Hty & Hres).
  exists text, o.
  unfold constructQuery, constructMutation, constructSubscription, constructOptions.
  cbv zeta. by rewrite Hres.
Qed.

Lemma unrecognized_option_aborts_witness :
  ∃ text option,
    option ∈ [ mkOption optionTypeOperationName "GetThing";
               mkOption (optionTypeUnrecognized "timeout") "5s" ] ∧
    option_Type option = optionTypeUnrecognized text ∧
    constructQuery exampleShape vars_id
      [ mkOption optionTypeOperationName "GetThing";
        mkOption (optionTypeUnrecognized "timeout") "5s" ]
      = ("", Some (invalidOption text)) ∧
    constructMutation exampleShape vars_id
      [ mkOption optionTypeOperationName "GetThing";
        mkOption (optionTypeUnrecognized "timeout") "5s" ]
      = ("", Some (invalidOption text)) ∧
    constructSubscription exampleShape vars_id
      [ mkOption optionTypeOperationName "GetThing";
        mkOption (optionTypeUnrecognized "timeout") "5s" ]
      = ("", Some (invalidOption text)).
Proof.
  apply (unrecognized_option_aborts exampleShape vars_id).
  apply Exists_cons_tl, Exists_cons_hd. split; discriminate.
Defined.

Example unrecognized_option_text :
  constructQuery exampleShape ∅ [ mkOption (optionTypeUnrecognized "timeout") "5s" ]
    = ("", Some (Errorf "invalid query option type: timeout")).
Proof. reflexivity. Qed.

(** * Further properties of the code *)

(** ** Writers only append *)

(** X1: [writeQuery] and [writeArgumentType] leave what the buffer holds in
    place and write after it, and what they write does not depend on it. *)
Theorem writers_only_append (w : Buffer) (t : type) (flag : bool) :
  writeQuery w t flag = w +:+ writeQuery "" t flag ∧
  writeArgumentType w t flag = w +:+ writeArgumentType "" t flag.
Proof. split; [apply writeQuery_frame | apply writeArgumentType_frame]. Qed.

(** ** The selection set as joined field texts *)

Lemma writeField_fieldText (w : Buffer) (i : nat) (f : StructField type) :
  writeField w i f = separator w i +:+ fieldText f.
Proof.
  rewrite writeField_unfold, writeQuery_frame. unfold fieldText.
  destruct (inlineField f); by buffers.
Qed.

Lemma writeFields_join (fs : list (StructField type)) :
  ∀ (f : StructField type) (w : Buffer),
    writeFields w 0 (f :: fs) = w +:+ strings_Join (fieldText <$> f :: fs) ",".
Proof.
  induction fs as [|g fs IH]; intros f w.
  - simpl. by rewrite writeField_fieldText.
  - change (writeFields w 0 (f :: g :: fs))
      with (writeFields (writeField w 0 f) 1 (g :: fs)).
    rewrite <- (writeFields_after_separator _ 1 (g :: fs)) by done.
    rewrite IH, writeField_fieldText. unfold separator. simpl negb. cbv iota.
    change (strings_Join (fieldText <$> f :: g :: fs) ",")
      with (fieldText f +:+ "," +:+ strings_Join (fieldText <$> g :: fs) ",").
    by buffers.
Qed.

Lemma writeFields_join_all (fs : list (StructField type)) (w : Buffer) :
  writeFields w 0 fs = w +:+ strings_Join (fieldText <$> fs) ",".
Proof. destruct fs as [|f fs]; [simpl; by buffers | apply writeFields_join]. Qed.

(** X2: the selection set of a struct that is not a scalar is the texts of
    its fields in declaration order, joined by single commas (none before
    the first field, none after the last), between braces unless the struct
    is inlined. *)
Theorem selection_is_joined_fields (name : string)
    (fields : list (StructField type)) (inline : bool) :
  writeQuery "" (Struct name false fields) inline =
    (if inline then "" else "{")
    +:+ strings_Join (fieldText <$> fields) ","
    +:+ (if inline then "" else "}").
Proof.
  rewrite writeQuery_Struct. cbv zeta iota.
  rewrite writeFields_join_all. destruct inline; simpl negb; cbv iota; by buffers.
Qed.

Lemma fieldText_leaf (f : StructField type) :
  inlineField f = false →
  isRecord (unwrap (Type_ f)) = false →
  fieldText f = displayName f.
Proof.
  intros Hi Hrec. unfold fieldText.
  rewrite Hi, writeQuery_not_record by done. by buffers.
Qed.

(** X3: for a struct that is not a scalar, whose fields are not inlined and
    have types that are not structs once pointers and slices are removed,
    the selection set is the display names of the fields in declaration
    order, joined by commas, between braces. *)
Theorem flat_struct_lists_its_fields (name : string)
    (fields : list (StructField type)) :
  Forall (λ f, inlineField f = false ∧ isRecord (unwrap (Type_ f)) = false)
    fields →
  query (Struct name false fields) =
    "{" +:+ strings_Join (displayName <$> fields) "," +:+ "}".
Proof.
  intros Hall. unfold query. rewrite writeQuery_Struct. cbv zeta iota.
  simpl negb. cbv iota. rewrite writeFields_join_all.
  assert (Heq : fieldText <$> fields = displayName <$> fields).
  { induction Hall as [|f fs [Hi Hrec] _ IH]; [done |].
    rewrite !fmap_cons, IH. f_equal. by apply fieldText_leaf. }
  rewrite Heq. by buffers.
Qed.

Lemma flat_struct_lists_its_fields_witness :
  query (Struct "Viewer" false
           [ field "Login" (Basic "string");
             mkStructField "CreatedAt" (Some "created_at") false (Ptr (Basic "int"));
             field "Tags" (Slice (Basic "string")) ])
    = "{Login,created_at,Tags}".
Proof.
  refine (flat_struct_lists_its_fields "Viewer" _ _).
  repeat constructor.
Defined.

(** X4: pointers and slices around a root, to any depth, do not change the
    selection set: it is the one of the type they end at. *)
Theorem query_unwraps_root (t : type) : query t = query (unwrap t).
Proof.
  unfold query. generalize "" as w.
  induction t as [name|elem IH|elem IH|len elem IH|name unm fields _]
    using type_fields_ind; intros w; try done.
  - simpl. apply IH.
  - simpl. apply IH.
Qed.

(** ** constructOptions as a fold *)

Lemma constructOptions_from_recognized (options : list Option) :
  Forall (λ o, recognized o = true) options →
  ∀ output,
    constructOptions_from output options =
      inl (mkConstructOptionsOutput
             (lastOperationName (operationName output) options)
             (operationDirectives output ++ directivesOf options)).
Proof.
  induction 1 as [|o options Ho _ IH]; intros output.
  - simpl. rewrite app_nil_r. by destruct output.
  - unfold recognized in Ho. simpl. unfold directivesOf. simpl.
    destruct (option_Type o); [| | done]; rewrite IH; simpl; [done |].
    by rewrite <- app_assoc.
Qed.

(** X5: when every option is an operation name or an operation directive,
    [constructOptions] succeeds; the name of its output is the payload of
    the last operation-name option (empty if there is none) and its
    directives are the payloads of the operation-directive options in the
    order given. *)
Theorem constructOptions_accepts (options : list Option) :
  Forall (λ o, recognized o = true) options →
  constructOptions options =
    inl (mkConstructOptionsOutput (lastOperationName "" options)
           (directivesOf options)).
Proof.
  intros Hall. unfold constructOptions.
  by rewrite constructOptions_from_recognized.
Qed.

Lemma constructOptions_accepts_witness :
  constructOptions
    [ mkOption optionTypeOperationName "First";
      mkOption OptionTypeOperationDirective "@cached";
      mkOption optionTypeOperationName "Second";
      mkOption OptionTypeOperationDirective "@live" ]
  = inl (mkConstructOptionsOutput "Second" ["@cached"; "@live"]).
Proof.
  refine (constructOptions_accepts _ _). repeat constructor.
Defined.

Lemma constructOptions_from_app (a b : list Option) :
  ∀ output,
    constructOptions_from output (a ++ b) =
      match constructOptions_from output a with
      | inl output' => constructOptions_from output' b
      | inr err => inr err
      end.
Proof.
  induction a as [|o a IH]; intros output; [done |].
  simpl. destruct (option_Type o); by rewrite ?IH.
Qed.

(** X6: the error of [constructOptions] is the one of the first option it
    does not know: after options that are all recognized, an option with
    another discriminant gives the invalid-option error with that
    discriminant, whatever options follow it. *)
Theorem constructOptions_first_unrecognized (pre post : list Option)
    (option : Option) (text : string) :
  Forall (λ o, recognized o = true) pre →
  option_Type option = optionTypeUnrecognized text →
  constructOptions (pre ++ option :: post) = inr (invalidOption text).
Proof.
  intros Hpre Hty. unfold constructOptions.
  rewrite constructOptions_from_app, constructOptions_from_recognized by done.
  simpl. by rewrite Hty.
Qed.

Lemma constructOptions_first_unrecognized_witness :
  constructOptions
    [ mkOption optionTypeOperationName "GetThing";
      mkOption (optionTypeUnrecognized "timeout") "5s";
      mkOption (optionTypeUnrecognized "retries") "3" ]
  = inr (invalidOption "timeout").
Proof.
  refine (constructOptions_first_unrecognized
            [ mkOption optionTypeOperationName "GetThing" ]
            [ mkOption (optionTypeUnrecognized "retries") "3" ]
            (mkOption (optionTypeUnrecognized "timeout") "5s") "timeout" _ _).
  - repeat constructor.
  - reflexivity.
Defined.

(** X7: resolving a list of options made of two parts is resolving the
    first part and going on with the second part from its output; an error
    in the first part is the result, and the second part is not looked at. *)
Theorem constructOptions_composes (a b : list Option) :
  constructOptions (a ++ b) =
    match constructOptions a with
    | inl output => constructOptions_from output b
    | inr err => inr err
    end.
Proof. apply constructOptions_from_app. Qed.

(** ** The directive text *)

Lemma strings_Join_empty (elems : list string) (sep : string) :
  sep ≠ "" → strings_Join elems sep = "" → elems = [] ∨ elems = [""].
Proof.
  intros Hsep. destruct elems as [|s [|s' rest]]; simpl; intros Hj.
  - by left.
  - right. by rewrite Hj.
  - destruct s; [| done]. rewrite append_empty_l in Hj.
    destruct sep; done.
Qed.

(** X8: the directive text is empty exactly when there is no directive or
    the one directive is the empty text; in every other case it is the
    directives joined by single spaces, with one space before and one
    after. *)
Theorem OperationDirectivesString_empty_iff (coo : constructOptionsOutput) :
  (OperationDirectivesString coo = "" ↔
     operationDirectives coo = [] ∨ operationDirectives coo = [""]) ∧
  (OperationDirectivesString coo = "" ∨
   OperationDirectivesString coo =
     " " +:+ strings_Join (operationDirectives coo) " " +:+ " ").
Proof.
  unfold OperationDirectivesString. cbv zeta.
  case_bool_decide as Hj; simpl.
  - split; [| by left]. split; [intros _ | done].
    by apply (strings_Join_empty _ " ").
  - split; [| by right]. split; [done |].
    intros [Hd|Hd]; rewrite Hd in Hj; by destruct Hj.
Qed.

(** ** The three assemblers side by side *)

Lemma length_append (a b : string) :
  String.length (a +:+ b) = String.length a + String.length b.
Proof.
  induction a as [|x a IH]; [done |].
  rewrite append_cons. simpl. by rewrite IH.
Qed.

(** X9: for options that [constructOptions] accepts, the three assemblers
    differ in the keyword only: there is one text that follows [mutation]
    in the mutation and [subscription] in the subscription, and the query
    is [query] followed by it, except without variables, name and
    directives, where the query is that text alone. *)
Theorem assemblers_share_the_tail (v : type) (variables : gmap string type)
    (options : list Option) (output : constructOptionsOutput) :
  constructOptions options = inl output →
  ∃ tail : string,
    constructMutation v variables options = ("mutation" +:+ tail, None) ∧
    constructSubscription v variables options = ("subscription" +:+ tail, None) ∧
    constructQuery v variables options =
      (if negb (bool_decide (0 < size variables))
          && bool_decide (operationName output = "")
          && bool_decide (length (operationDirectives output) = 0)
       then tail else "query" +:+ tail, None).
Proof.
  intros Hopt.
  unfold constructMutation, constructSubscription, constructQuery. cbv zeta.
  rewrite Hopt.
  destruct (bool_decide (0 < size variables)); simpl negb; simpl andb; cbv iota.
  - by eexists (" " +:+ _).
  - destruct (bool_decide (operationName output = "")
              && bool_decide (length (operationDirectives output) = 0)).
    + by eexists.
    + by eexists (" " +:+ _).
Qed.

Lemma assemblers_share_the_tail_witness :
  ∃ tail : string,
    constructMutation exampleShape vars_id
      [ mkOption optionTypeOperationName "GetThing" ] = ("mutation" +:+ tail, None) ∧
    constructSubscription exampleShape vars_id
      [ mkOption optionTypeOperationName "GetThing" ] = ("subscription" +:+ tail, None) ∧
    constructQuery exampleShape vars_id
      [ mkOption optionTypeOperationName "GetThing" ] =
      (if negb (bool_decide (0 < size vars_id))
          && bool_decide ("GetThing" = "")
          && bool_decide (length (@nil string) = 0)
       then tail else "query" +:+ tail, None).
Proof.
  exact (assemblers_share_the_tail exampleShape vars_id
           [ mkOption optionTypeOperationName "GetThing" ]
           (mkConstructOptionsOutput "GetThing" []) eq_refl).
Defined.

(** X10: [constructMutation] and [constructSubscription] return the empty
    text exactly when they return an error; [constructQuery] returns the
    empty text whenever it returns an error. *)
Theorem empty_text_and_error (v : type) (variables : gmap string type)
    (options : list Option) :
  ((constructMutation v variables options).1 = "" ↔
     (constructMutation v variables options).2 ≠ None) ∧
  ((constructSubscription v variables options).1 = "" ↔
     (constructSubscription v variables options).2 ≠ None) ∧
  ((constructQuery v variables options).2 = None ∨
   (constructQuery v variables options).1 = "").
Proof.
  unfold constructMutation, constructSubscription, constructQuery. cbv zeta.
  destruct (constructOptions options) as [output|err]; simpl.
  - destruct (bool_decide (0 < size variables)),
      (bool_decide (operationName output = "")
       && bool_decide (length (operationDirectives output) = 0));
      simpl; split_and!; try (by left); split; done.
  - split_and!; [done | done | by right].
Qed.

(** X11: [constructQuery] returns the selection set alone, without keyword,
    exactly when the variable map is empty and the options resolve to the
    empty name and no directive. *)
Theorem constructQuery_shorthand_iff (v : type) (variables : gmap string type)
    (options : list Option) :
  constructQuery v variables options = (query v, None) ↔
  variables = ∅ ∧ constructOptions options = inl (mkConstructOptionsOutput "" []).
Proof.
  unfold constructQuery. cbv zeta. split.
  - destruct (constructOptions options) as [[name directives]|err]; [| done].
    simpl. case_bool_decide as Hsize.
    + intros [= Heq]. apply (f_equal String.length) in Heq.
      rewrite !length_append in Heq. simpl in Heq. lia.
    + repeat case_bool_decide; simpl.
      * intros _. split.
        -- apply map_size_empty_iff. lia.
        -- subst name. by destruct directives.
      * intros [= Heq]. apply (f_equal String.length) in Heq.
        rewrite !length_append in Heq. simpl in Heq. lia.
      * intros [= Heq]. apply (f_equal String.length) in Heq.
        rewrite !length_append in Heq. simpl in Heq. lia.
      * intros [= Heq]. apply (f_equal String.length) in Heq.
        rewrite !length_append in Heq. simpl in Heq. lia.
  - intros [-> ->]. reflexivity.
Qed.

(** ** Adding a variable *)

Lemma queryArguments_sorted (variables : gmap string type)
    (es : list (string * type)) :
  es ≡ₚ map_to_list variables →
  Sorted String.le es.*1 →
  queryArguments variables = concat_strings (declaration <$> es).
Proof.
  intros Hperm Hsorted. unfold queryArguments, queryArguments_of_keys. cbv zeta.
  rewrite (sort_Strings_unique _ es.*1) by (done || by rewrite Hperm).
  rewrite fold_declarations; [by buffers |].
  intros k t Hin. apply elem_of_map_to_list. by rewrite <- Hperm.
Qed.

Lemma concat_strings_app (a b : list string) :
  concat_strings (a ++ b) = concat_strings a +:+ concat_strings b.
Proof.
  induction a as [|x a IH]; [done |].
  simpl. unfold concat_strings in *. simpl. rewrite IH. by buffers.
Qed.

(** X12: adding a variable under a new name puts its declaration into the
    text and leaves the others as they are and in their order: the entries
    of the map split into those before and those after the new name, the
    old text is their declarations one after the other, and the new text
    has the new declaration between the two parts. *)
Theorem queryArguments_insert (variables : gmap string type) (k : string)
    (t : type) :
  variables !! k = None →
  ∃ es1 es2 : list (string * type),
    es1 ++ es2 ≡ₚ map_to_list variables ∧
    Forall (λ e, String.le e.1 k) es1 ∧
    Forall (λ e, String.le k e.1) es2 ∧
    queryArguments variables =
      concat_strings (declaration <$> es1) +:+ concat_strings (declaration <$> es2) ∧
    queryArguments (<[k := t]> variables) =
      concat_strings (declaration <$> es1) +:+ declaration (k, t)
      +:+ concat_strings (declaration <$> es2).
Proof.
  intros Hfresh.
  set (es' := merge_sort entry_le (map_to_list (<[k := t]> variables))).
  assert (Hperm' : es' ≡ₚ (k, t) :: map_to_list variables).
  { unfold es'. rewrite merge_sort_Permutation. by apply map_to_list_insert. }
  assert (Hsorted' : Sorted String.le es'.*1).
  { apply (Sorted_fmap _ entry_le); [done |]. apply (Sorted_merge_sort entry_le). }
  assert (Hin : (k, t) ∈ es') by (rewrite Hperm'; left).
  apply list_elem_of_split in Hin as (es1 & es2 & Hsplit).
  exists es1, es2.
  assert (Hperm : es1 ++ es2 ≡ₚ map_to_list variables).
  { apply (Permutation_cons_inv (a := (k, t))).
    by rewrite <- Hperm', Hsplit, Permutation_middle. }
  pose proof (Sorted_StronglySorted _ _ Hsorted') as Hss.
  rewrite Hsplit, fmap_app, fmap_cons in Hss. simpl in Hss.
  apply StronglySorted_app in Hss as (Hcross & Hss1 & Hss2).
  apply StronglySorted_cons in Hss2 as (Hafter & Hss2).
  assert (Hbefore : Forall (λ e, String.le e.1 k) es1).
  { apply Forall_forall. intros e He. apply Hcross; [| left].
    by apply list_elem_of_fmap_2. }
  assert (Hsorted : Sorted String.le ((es1 ++ es2)%list).*1).
  { rewrite fmap_app. apply StronglySorted_Sorted, StronglySorted_app_2; try done.
    intros x1 x2 H1 H2. apply Hcross; [done | by right]. }
  split_and!; try done.
  - by rewrite Forall_fmap in Hafter.
  - rewrite (queryArguments_sorted variables (es1 ++ es2)) by done.
    by rewrite fmap_app, concat_strings_app.
  - rewrite (queryArguments_sorted (<[k := t]> variables) es').
    + rewrite Hsplit, fmap_app, concat_strings_app, fmap_cons.
      unfold concat_strings at 2. simpl. by buffers.
    + unfold es'. apply merge_sort_Permutation.
    + done.
Qed.

Lemma queryArguments_insert_witness :
  ∃ es1 es2 : list (string * type),
    es1 ++ es2 ≡ₚ map_to_list vars_ab ∧
    Forall (λ e, String.le e.1 "aa") es1 ∧
    Forall (λ e, String.le "aa" e.1) es2 ∧
    queryArguments vars_ab =
      concat_strings (declaration <$> es1) +:+ concat_strings (declaration <$> es2) ∧
    queryArguments (<["aa" := Slice TInt]> vars_ab) =
      concat_strings (declaration <$> es1) +:+ declaration ("aa", Slice TInt)
      +:+ concat_strings (declaration <$> es2).
Proof.
  apply (queryArguments_insert vars_ab "aa" (Slice TInt)).
  by vm_compute.
Defined.

Example queryArguments_insert_text :
  queryArguments (<["aa" := Slice TInt]> vars_ab) = "$a:Int!$aa:[Int!]!$b:Boolean".
Proof. by vm_compute. Qed.

(** ** Braces and brackets *)

Lemma countByte_app (c : ascii) (a b : string) :
  countByte c (a +:+ b) = countByte c a + countByte c b.
Proof.
  induction a as [|x a IH]; [done |].
  rewrite append_cons. simpl. rewrite IH. lia.
Qed.

Lemma countByte_join_balanced (c d : ascii) (parts : list string) (sep : string) :
  countByte c sep = countByte d sep →
  Forall (λ s, countByte c s = countByte d s) parts →
  countByte c (strings_Join parts sep) = countByte d (strings_Join parts sep).
Proof.
  intros Hsep. induction 1 as [|s parts Hs Hall IH]; [done |].
  destruct parts as [|s' parts]; [done |].
  change (strings_Join (s :: s' :: parts) sep)
    with (s +:+ sep +:+ strings_Join (s' :: parts) sep).
  rewrite !countByte_app, Hs, Hsep, IH. done.
Qed.

Lemma noBraces_counts (s : string) :
  noBraces s = true → countByte "{" s = 0 ∧ countByte "}" s = 0.
Proof.
  unfold noBraces. intros [H1 H2]%andb_prop.
  by apply Nat.eqb_eq in H1, H2.
Qed.

(** X13: when the names and tags that are written hold no brace, the
    selection text of any type, inlined or not, has as many opening as
    closing braces. *)
Theorem selection_braces_balanced (t : type) :
  displayNames_ok t = true →
  ∀ inline : bool,
    countByte "{" (writeQuery "" t inline) = countByte "}" (writeQuery "" t inline).
Proof.
  induction t as [name|elem IH|elem IH|len elem IH|name unm fields IH]
    using type_fields_ind; intros Hok inline; try done.
  - simpl. by apply IH.
  - simpl. by apply IH.
  - destruct unm; [done |].
    rewrite writeQuery_Struct. cbv zeta iota. rewrite writeFields_join_all.
    simpl in Hok.
    assert (Hparts : Forall (λ s, countByte "{" s = countByte "}" s)
                       (fieldText <$> fields)).
    { clear inline. induction IH as [|f fs Hf _ IHfs]; [constructor |].
      simpl in Hok. apply andb_prop in Hok as [Hfok Hrest].
      apply andb_prop in Hfok as [Hname Htype].
      rewrite fmap_cons. constructor; [| by apply IHfs].
      unfold fieldText. rewrite !countByte_app, (Hf Htype).
      destruct (inlineField f); [done |]. simpl in Hname.
      by destruct (noBraces_counts _ Hname) as [-> ->]. }
    pose proof (countByte_join_balanced "{" "}" _ "," eq_refl Hparts) as Hjoin.
    unfold WriteString. destruct inline; simpl negb; cbv iota.
    + by rewrite append_empty_l.
    + rewrite !countByte_app, Hjoin. simpl. lia.
Qed.

Lemma selection_braces_balanced_witness :
  countByte "{" (writeQuery "" (parentOf pairStruct) false) =
  countByte "}" (writeQuery "" (parentOf pairStruct) false).
Proof.
  apply (selection_braces_balanced (parentOf pairStruct)). reflexivity.
Defined.

Lemma isIdentifier_no_brackets (name : string) :
  isIdentifier name = true →
  countByte "[" name = 0 ∧ countByte "]" name = 0.
Proof.
  induction name as [|c name IH]; [done |].
  simpl isIdentifier. intros [Hc Hname]%andb_prop.
  destruct (IH Hname) as [IH1 IH2].
  change (countByte ?b (String c name))
    with ((if Ascii.eqb b c then 1 else 0) + countByte b name).
  rewrite IH1, IH2. split.
  - destruct (Ascii.eqb_spec "[" c) as [<-|_]; [by vm_compute in Hc | done].
  - destruct (Ascii.eqb_spec "]" c) as [<-|_]; [by vm_compute in Hc | done].
Qed.

(** X14: for a type whose names are identifiers, the signature has exactly
    one opening and one closing bracket per slice or array layer of the
    type, whatever the required flag. *)
Theorem signature_brackets (t : type) :
  type_names_ok t = true →
  ∀ value : bool,
    countByte "[" (writeArgumentType "" t value) = listDepth t ∧
    countByte "]" (writeArgumentType "" t value) = listDepth t.
Proof.
  assert (Hname : ∀ (name : string) (value : bool),
            isIdentifier name = true →
            let text := WriteString "" (if bool_decide (name = "string")
                                        then "ID" else name) in
            countByte "[" (if value then WriteString text "!" else text) = 0 ∧
            countByte "]" (if value then WriteString text "!" else text) = 0).
  { intros name value Hid. cbv zeta. unfold WriteString.
    rewrite append_empty_l.
    assert (Hn : countByte "[" (if bool_decide (name = "string") then "ID" else name) = 0
                 ∧ countByte "]" (if bool_decide (name = "string") then "ID" else name) = 0).
    { case_bool_decide; [done | by apply isIdentifier_no_brackets]. }
    destruct Hn as [Hn1 Hn2].
    destruct value; rewrite ?countByte_app, ?Hn1, ?Hn2; done. }
  induction t as [name|elem IH|elem IH|len elem IH|name unm fields _]
    using type_fields_ind; intros Hok value.
  - by apply Hname.
  - simpl. by apply IH.
  - simpl in *. rewrite writeArgumentType_frame. unfold WriteString.
    destruct (IH Hok true) as [IH1 IH2].
    destruct value; rewrite !countByte_app, IH1, IH2; simpl; lia.
  - simpl in *. rewrite writeArgumentType_frame. unfold WriteString.
    destruct (IH Hok true) as [IH1 IH2].
    destruct value; rewrite !countByte_app, IH1, IH2; simpl; lia.
  - simpl in Hok. apply andb_prop in Hok as [Hid _]. by apply Hname.
Qed.

Lemma signature_brackets_witness :
  countByte "[" (writeArgumentType "" (Slice (Ptr (Array 4 TInt))) true) = 2 ∧
  countByte "]" (writeArgumentType "" (Slice (Ptr (Array 4 TInt))) true) = 2.
Proof.
  apply (signature_brackets (Slice (Ptr (Array 4 TInt)))). reflexivity.
Defined.

(** X15: any number of pointers around a type count as one: the signature
    is the one of the type asked as optional, whatever the required flag. *)
Theorem pointers_collapse (n : nat) (w : Buffer) (T : type) (value : bool) :
  writeArgumentType w (Nat.iter (S n) Ptr T) value =
    writeArgumentType w T false.
Proof.
  revert value. induction n as [|n IH]; intros value.
  - destruct T; reflexivity.
  - change (Nat.iter (S (S n)) Ptr T) with (Ptr (Nat.iter (S n) Ptr T)).
    rewrite writeArgumentType_Ptr. apply IH.
Qed.
